(** * The Games API of app.py

    app.py is a Flask application with one SQLAlchemy model, [Games], kept in
    the SQLite file data.db, and five views.  The views are embedded below as
    functions that pass the table explicitly; what Flask, SQLAlchemy and
    SQLite contribute (the dictionary lookup that raises, the primary-key
    query, the constraints of the table, the mapping of a view's outcome to
    an HTTP status) is written out next to them. *)

From stdpp Require Import gmap strings list fin_maps.
From Stdlib Require Import ZArith.

Set Warnings "-register-all".
Local Open Scope Z_scope.

(** ** Python values *)

(** What a view returns inside a dictionary: [None], an [int], a [str], a
    list or a dictionary with string keys. *)
Inductive pyval :=
  | PNone
  | PInt (z : Z)
  | PStr (s : string)
  | PList (l : list pyval)
  | PDict (d : gmap string pyval).

(** A column of type [db.String] holds a text or NULL; in Python, a [str] or
    [None].  The same type stands for a field of a JSON request body: a JSON
    string or null.  What the database driver makes of a number, an array or
    an object bound to a [String] column is not decided by app.py, and such
    fields are not part of this development. *)
Abbreviation text := (option string).

Definition py_text (v : text) : pyval :=
  match v with
  | Some s => PStr s
  | None => PNone
  end.

(** [str(v)], as the f-strings of app.py apply it to a column. *)
Definition py_str (v : text) : string :=
  match v with
  | Some s => s
  | None => "None"
  end.

(** ** The model class *)

Module Games.

(** An instance of [class Games(db.Model)].  [id] is [None] until the
    object has been flushed to the table. *)
Record t := mk {
  id : option Z;
  name : text;
  description : text
}.

(** [Games(name=..., description=...)] *)
Definition new (name description : text) : t :=
  mk None name description.

(** [__repr__]: [f'{self.name} - {self.description}'] *)
Definition repr (self : t) : string :=
  py_str (name self) +:+ " - " +:+ py_str (description self).

End Games.

(** ** The table [games]

    [id] is the INTEGER PRIMARY KEY, so the table is a finite map from the
    key to the other two columns.  [name] is declared [nullable=False], so a
    stored row always has one; [description] may be NULL.  SQLite does not
    enforce the lengths 80 and 150 of the two [String] columns. *)
Record row := Row {
  row_name : string;
  row_description : text
}.

Abbreviation table := (gmap Z row).

(** The ORM object loaded from the row stored under key [k]. *)
Definition load (k : Z) (r : row) : Games.t :=
  Games.mk (Some k) (Some (row_name r)) (row_description r).

(** ** Exceptions and the monad of the views *)

(** The constraints of the table that an INSERT can violate. *)
Inductive constraint := NotNull | Unique.

Inductive exn :=
  | KeyError (key : string)
  | IntegrityError (c : constraint)
  | InvalidRequestError
  | NotFound.

Inductive result (A : Type) :=
  | Return (a : A)
  | Raise (e : exn).
Arguments Return {A} a.
Arguments Raise {A} e.

(** A computation reads and writes the table and returns or raises. *)
Definition M (A : Type) : Type := table → result A * table.

Definition ret {A} (a : A) : M A := λ t, (Return a, t).
Definition raise {A} (e : exn) : M A := λ t, (Raise e, t).
Definition bind {A B} (m : M A) (k : A → M B) : M B :=
  λ t, match m t with
       | (Return a, t') => k a t'
       | (Raise e, t') => (Raise e, t')
       end.

Notation "x <- m ;; k" := (bind m (λ x, k))
  (at level 100, m at next level, right associativity, only parsing).

(** [d[key]] on a dictionary: [KeyError] when the key is absent. *)
Definition getitem {A} (d : gmap string A) (key : string) : M A :=
  match d !! key with
  | Some v => ret v
  | None => raise (KeyError key)
  end.

(** ** The storage layer: SQLAlchemy over SQLite *)

(** The largest key in use.  SQLite gives a new row the key after it, and
    the key 1 in an empty table.  (Keys are 64-bit in SQLite; a table whose
    largest key is 2^63-1 gets some other unused key, which the unbounded
    [Z] here does not show.) *)
Definition max_rowid (t : table) : option Z :=
  map_fold (λ k _ acc,
              match acc with
              | Some m => Some (Z.max k m)
              | None => Some k
              end) None t.

Definition next_rowid (t : table) : Z :=
  match max_rowid t with
  | Some m => m + 1
  | None => 1
  end.

(** Some row has the name [n]. *)
Definition has_name (n : string) (t : table) : Prop :=
  map_Exists (λ _ r, row_name r = n) t.

#[global] Instance has_name_dec n t : Decision (has_name n t).
Proof. unfold has_name. apply _. Defined.

(** The UNIQUE index on [name], consulted by an INSERT. *)
Definition name_taken (n : string) (t : table) : bool :=
  bool_decide (has_name n t).

(** No two rows have the same name. *)
Definition unique_names (t : table) : Prop :=
  ∀ i j ri rj,
    t !! i = Some ri → t !! j = Some rj → row_name ri = row_name rj → i = j.

(** [db.session.add(game)] then [db.session.commit()], for a new object:
    one INSERT in one transaction.  A constraint that fails rolls the
    transaction back and raises; otherwise the row is stored under a new key
    and [game] carries that key from then on. *)
Definition session_add_commit (game : Games.t) : M Games.t :=
  λ t,
    match Games.name game with
    | None => (Raise (IntegrityError NotNull), t)
    | Some n =>
        if name_taken n t then (Raise (IntegrityError Unique), t)
        else
          let k := next_rowid t in
          let r := Row n (Games.description game) in
          (Return (load k r), <[k := r]> t)
    end.

(** [db.session.delete(game)] then [db.session.commit()]: one DELETE by
    primary key.  An object that was never stored cannot be deleted. *)
Definition session_delete_commit (game : Games.t) : M unit :=
  λ t,
    match Games.id game with
    | Some k => (Return (), delete k t)
    | None => (Raise InvalidRequestError, t)
    end.

(** [Games.query.all()]: every row, in the order the storage yields them. *)
Definition query_all : M (list Games.t) :=
  λ t, (Return (uncurry load <$> map_to_list t), t).

(** ** Requests, view results and responses *)

(** The five routes of the application. *)
Inductive request :=
  | GET_index
  | GET_games
  | GET_game (id : string)
  | POST_games (request_json : gmap string text)
  | DELETE_game (id : string).

(** What a view function returns: a [str] or a [dict]. *)
Inductive retval :=
  | RStr (s : string)
  | RDict (d : gmap string pyval).

(** A response body: text, JSON, or the error page of the status. *)
Inductive http_body :=
  | Html (s : string)
  | Json (d : gmap string pyval)
  | ErrorPage.

Record http_response := Response {
  status : Z;
  body : http_body
}.

Section Views.

(** The path parameter [<id>] reaches the views as text, and SQLite compares
    it with the integer column [id].  [pk_of_text] is that comparison: the
    key a text denotes, [None] for a text that equals no integer key.  The
    views are correct for every such function. *)
Variable pk_of_text : string → option Z.

(** The row, with its key, that the identifier selects. *)
Definition select_by_pk (ident : string) (t : table) : option (Z * row) :=
  k ← pk_of_text ident; r ← t !! k; Some (k, r).

(** [Games.query.get(ident)] *)
Definition query_get (ident : string) : M (option Games.t) :=
  λ t, (Return (uncurry load <$> select_by_pk ident t), t).

(** [Games.query.get_or_404(ident)]: [abort(404)] when there is no row. *)
Definition query_get_or_404 (ident : string) : M Games.t :=
  game <- query_get ident;;
  match game with
  | Some g => ret g
  | None => raise NotFound
  end.

(** ** The views *)

(** [@app.route('/')] *)
Definition index : retval := RStr "Hello World".

(** [{'name': game.name, 'description': game.description}] *)
Definition game_data (game : Games.t) : pyval :=
  PDict {[ "name" := py_text (Games.name game);
           "description" := py_text (Games.description game) ]}.

(** [@app.route('/games')]: the loop appends one dictionary per game. *)
Definition get_games : M retval :=
  games <- query_all;;
  let output := foldl (λ output game, output ++ [game_data game]) [] games in
  ret (RDict {[ "games" := PList output ]}).

(** [@app.route('/games/<id>')] *)
Definition get_game (id : string) : M retval :=
  game <- query_get_or_404 id;;
  ret (RDict {[ "name" := py_text (Games.name game);
                "description" := py_text (Games.description game) ]}).

(** [@app.route('/games', methods=['POST'])].  [request_json] is
    [request.json], the JSON object of the body; the second [game] is the
    object after the commit, when it has its [id]. *)
Definition add_drink (request_json : gmap string text) : M retval :=
  name <- getitem request_json "name";;
  description <- getitem request_json "description";;
  let game := Games.new name description in
  game <- session_add_commit game;;
  ret (RDict {[ "id" := from_option PInt PNone (Games.id game) ]}).

(** [@app.route('/games/<id>', methods=['DELETE'])] *)
Definition delete_game (id : string) : M retval :=
  game <- query_get id;;
  match game with
  | None => ret (RStr "Error: game not found")
  | Some game =>
      _ <- session_delete_commit game;;
      ret (RDict {[ "message" := PStr (py_str (Games.name game) +:+ " deleted") ]})
  end.

(** ** Flask: from a request to a response *)

(** The URL map built by the [app.route] decorators. *)
Definition dispatch_request (req : request) : M retval :=
  match req with
  | GET_index => ret index
  | GET_games => get_games
  | GET_game id => get_game id
  | POST_games request_json => add_drink request_json
  | DELETE_game id => delete_game id
  end.

(** A returned [str] is an HTML body and a returned [dict] a JSON body, both
    with status 200; [abort(404)] gives the 404 page; any other exception is
    not handled by the application and gives the 500 page. *)
Definition make_response (r : result retval) : http_response :=
  match r with
  | Return (RStr s) => Response 200 (Html s)
  | Return (RDict d) => Response 200 (Json d)
  | Raise NotFound => Response 404 ErrorPage
  | Raise _ => Response 500 ErrorPage
  end.

(** One request against the table: the response and the table afterwards. *)
Definition wsgi_app (req : request) (t : table) : http_response * table :=
  let '(r, t') := dispatch_request req t in (make_response r, t').

(** The tables the application can produce from the empty table that
    [db.create_all()] leaves. *)
Inductive reachable : table → Prop :=
  | reachable_empty : reachable ∅
  | reachable_request req t : reachable t → reachable (wsgi_app req t).2.

End Views.

Arguments reachable_request {pk_of_text} req t _.

(** ** A comparison function: decimal text

    Every text of decimal digits denotes its number; this is one function
    that [pk_of_text] can be, used for the examples below. *)

Definition digit_of_ascii (a : Ascii.ascii) : option Z :=
  let n := Z.of_N (Ascii.N_of_ascii a) in
  if decide (48 ≤ n ≤ 57) then Some (n - 48) else None.

Fixpoint digits (acc : Z) (s : string) : option Z :=
  match s with
  | EmptyString => Some acc
  | String a s' => d ← digit_of_ascii a; digits (10 * acc + d) s'
  end.

Definition decimal (s : string) : option Z :=
  match s with
  | EmptyString => None
  | _ => digits 0 s
  end.

(** ** Examples *)

(** Three request bodies, a body without a name, a body without a
    description, and the table after the first two have been posted. *)
Definition zelda : gmap string text :=
  {[ "name" := Some "Zelda"; "description" := Some "An adventure" ]}.
Definition pong : gmap string text :=
  {[ "name" := Some "Pong"; "description" := None ]}.
Definition tetris : gmap string text :=
  {[ "name" := Some "Tetris"; "description" := Some "Falling blocks" ]}.
Definition nameless : gmap string text :=
  {[ "description" := Some "A game with no name" ]}.
Definition zelda_again : gmap string text :=
  {[ "name" := Some "Zelda" ]}.
Definition two_games : table :=
  {[ 1 := Row "Zelda" (Some "An adventure"); 2 := Row "Pong" None ]}.

(** ** A client

    The requests of a client, served one after the other: the responses, in
    order, and the table at the end. *)
Fixpoint serve (pk_of_text : string → option Z)
    (reqs : list request) (t : table) : list http_response * table :=
  match reqs with
  | [] => ([], t)
  | req :: reqs =>
      let '(resp, t') := wsgi_app pk_of_text req t in
      let '(resps, t'') := serve pk_of_text reqs t' in
      (resp :: resps, t'')
  end.

(** The body [{"name": n, "description": d}]. *)
Definition game_json (g : string * text) : gmap string text :=
  {[ "name" := Some g.1; "description" := g.2 ]}.

(** * Properties *)

(** Case analysis on the two keys that [add_drink] reads from the body. *)
Ltac case_body request_json :=
  destruct (request_json !! "name") as [[?n|]|];
  destruct (request_json !! "description") as [?d|].

(** A decidable proposition about concrete data, settled by evaluation. *)
Ltac by_evaluation := apply (bool_decide_unpack _); vm_compute; exact I.

(** ** The storage layer *)

Lemma max_rowid_bound (t : table) k r :
  t !! k = Some r → ∃ m, max_rowid t = Some m ∧ k ≤ m.
Proof.
  unfold max_rowid. revert k r.
  apply (map_fold_weak_ind
           (λ acc (t : table), ∀ k r, t !! k = Some r → ∃ m, acc = Some m ∧ k ≤ m)).
  - intros k r. by rewrite lookup_empty.
  - intros i x m acc _ IH k r Hk. destruct (decide (i = k)) as [->|Hne].
    + destruct acc; eexists; (split; [done|]); lia.
    + rewrite lookup_insert_ne in Hk by done.
      destruct (IH _ _ Hk) as (m' & -> & Hle).
      eexists; split; [done|]. lia.
Qed.

(** The key of a new row is not in use. *)
Lemma next_rowid_fresh (t : table) : t !! next_rowid t = None.
Proof.
  destruct (t !! next_rowid t) eqn:E; [|done].
  apply max_rowid_bound in E as (m & Hm & Hle).
  unfold next_rowid in Hle. rewrite Hm in Hle. simpl in Hle. lia.
Qed.

Lemma has_name_lookup n (t : table) :
  has_name n t ↔ ∃ k r, t !! k = Some r ∧ row_name r = n.
Proof. apply map_Exists_lookup. Qed.

Lemma name_taken_true n t : has_name n t → name_taken n t = true.
Proof. intros H. by apply bool_decide_eq_true_2. Qed.

Lemma name_taken_false n t : ¬ has_name n t → name_taken n t = false.
Proof. intros H. by apply bool_decide_eq_false_2. Qed.

Lemma unique_names_empty : unique_names ∅.
Proof. intros i j ri rj Hi. by rewrite lookup_empty in Hi. Qed.

Lemma unique_names_insert (t : table) k n d :
  t !! k = None → ¬ has_name n t → unique_names t →
  unique_names (<[k := Row n d]> t).
Proof.
  intros Hk Hn Hu i j ri rj Hi Hj Heq.
  destruct (decide (i = j)) as [|Hij]; [done|]. exfalso.
  destruct (decide (k = i)) as [Hki|Hki], (decide (k = j)) as [Hkj|Hkj].
  - congruence.
  - subst i. rewrite lookup_insert_eq in Hi. rewrite lookup_insert_ne in Hj by done.
    injection Hi as <-. apply Hn, has_name_lookup. by exists j, rj.
  - subst j. rewrite lookup_insert_eq in Hj. rewrite lookup_insert_ne in Hi by done.
    injection Hj as <-. apply Hn, has_name_lookup. by exists i, ri.
  - rewrite lookup_insert_ne in Hi by done.
    rewrite lookup_insert_ne in Hj by done. by apply Hij, (Hu i j ri rj).
Qed.

Lemma unique_names_delete (t : table) k :
  unique_names t → unique_names (delete k t).
Proof.
  intros Hu i j ri rj Hi Hj Heq.
  apply lookup_delete_Some in Hi as [_ Hi].
  apply lookup_delete_Some in Hj as [_ Hj].
  by apply (Hu i j ri rj).
Qed.

(** The loop of [get_games] is a map over the games. *)
Lemma output_loop {A B} (f : A → B) (l : list A) (acc : list B) :
  foldl (λ output x, output ++ [f x]) acc l = acc ++ (f <$> l).
Proof.
  revert acc. induction l as [|x l IH]; intros acc; simpl.
  - by rewrite app_nil_r.
  - rewrite IH. by rewrite <- app_assoc.
Qed.

(** ** The views, run on a table *)

Section ViewProperties.

Variable pk_of_text : string → option Z.

Lemma get_games_run t :
  get_games t =
    (Return (RDict {[ "games" :=
       PList (game_data ∘ uncurry load <$> map_to_list t) ]}), t).
Proof.
  unfold get_games, query_all, bind, ret.
  by rewrite output_loop, list_fmap_compose.
Qed.

Lemma get_game_run id t :
  get_game pk_of_text id t =
    (match select_by_pk pk_of_text id t with
     | Some (k, r) =>
         Return (RDict {[ "name" := PStr (row_name r);
                          "description" := py_text (row_description r) ]})
     | None => Raise NotFound
     end, t).
Proof.
  unfold get_game, query_get_or_404, query_get, bind, ret, raise.
  by destruct (select_by_pk _ _ _) as [[k r]|].
Qed.

Lemma add_drink_run request_json t :
  add_drink request_json t =
    match request_json !! "name", request_json !! "description" with
    | None, _ => (Raise (KeyError "name"), t)
    | Some _, None => (Raise (KeyError "description"), t)
    | Some None, Some _ => (Raise (IntegrityError NotNull), t)
    | Some (Some n), Some d =>
        if name_taken n t then (Raise (IntegrityError Unique), t)
        else (Return (RDict {[ "id" := PInt (next_rowid t) ]}),
              <[next_rowid t := Row n d]> t)
    end.
Proof.
  unfold add_drink, getitem, session_add_commit, bind, ret, raise.
  case_body request_json; simpl; try done.
  by destruct (name_taken n t).
Qed.

Lemma delete_game_run id t :
  delete_game pk_of_text id t =
    match select_by_pk pk_of_text id t with
    | Some (k, r) =>
        (Return (RDict {[ "message" := PStr (row_name r +:+ " deleted") ]}),
         delete k t)
    | None => (Return (RStr "Error: game not found"), t)
    end.
Proof.
  unfold delete_game, query_get, session_delete_commit, bind, ret.
  by destruct (select_by_pk _ _ _) as [[k r]|].
Qed.

(** The identifier selects the row stored under the key it denotes. *)
Lemma select_by_pk_Some id t k r :
  select_by_pk pk_of_text id t = Some (k, r) ↔
  pk_of_text id = Some k ∧ t !! k = Some r.
Proof.
  unfold select_by_pk. destruct (pk_of_text id) as [k'|]; simpl.
  - destruct (t !! k') as [r'|] eqn:E; simpl.
    + split; [by intros [= <- <-]|]. intros [[= <-] Hr]. congruence.
    + split; [done|]. intros [[= <-] Hr]. congruence.
  - split; [done|]. by intros [? _].
Qed.

Lemma select_by_pk_delete id t k :
  pk_of_text id = Some k → select_by_pk pk_of_text id (delete k t) = None.
Proof. intros H. unfold select_by_pk. rewrite H. simpl. by rewrite lookup_delete_eq. Qed.

Lemma select_by_pk_insert id (t : table) k r :
  pk_of_text id = Some k →
  select_by_pk pk_of_text id (<[k := r]> t) = Some (k, r).
Proof. intros H. unfold select_by_pk. rewrite H. simpl. by rewrite lookup_insert_eq. Qed.

(** A request leaves the table as it is, adds one row with a new key and a
    new name, or removes one row. *)
Lemma wsgi_app_table req t :
  (wsgi_app pk_of_text req t).2 = t ∨
  (∃ k n d, (wsgi_app pk_of_text req t).2 = <[k := Row n d]> t
            ∧ t !! k = None ∧ ¬ has_name n t) ∨
  (∃ k, (wsgi_app pk_of_text req t).2 = delete k t).
Proof.
  unfold wsgi_app, dispatch_request. destruct req as [| |id|request_json|id].
  - by left.
  - rewrite get_games_run. by left.
  - rewrite get_game_run. by left.
  - rewrite add_drink_run.
    case_body request_json; simpl; try by left.
    unfold name_taken. case_bool_decide as Hn; simpl; [by left|].
    right; left. exists (next_rowid t), n, d.
    split_and!; [done|apply next_rowid_fresh|done].
  - rewrite delete_game_run.
    destruct (select_by_pk _ _ _) as [[k r]|]; simpl; [|by left].
    right; right. by exists k.
Qed.

Lemma wsgi_app_unique_names req t :
  unique_names t → unique_names (wsgi_app pk_of_text req t).2.
Proof.
  intros Hu.
  destruct (wsgi_app_table req t) as [->|[(k & n & d & -> & Hk & Hn)|(k & ->)]].
  - done.
  - by apply unique_names_insert.
  - by apply unique_names_delete.
Qed.

Lemma reachable_unique_names t : reachable pk_of_text t → unique_names t.
Proof.
  induction 1 as [|req t _ IH].
  - apply unique_names_empty.
  - by apply wsgi_app_unique_names.
Qed.

Lemma dom_name_description (a b : pyval) :
  dom ({[ "name" := a; "description" := b ]} : gmap string pyval)
  = ({[ "name"; "description" ]} : gset string).
Proof. by rewrite dom_insert_L, dom_singleton_L. Qed.

End ViewProperties.

(** ** The responses of the application *)

Section Responses.

Variable pk_of_text : string → option Z.

Lemma wsgi_app_GET_games t :
  wsgi_app pk_of_text GET_games t =
    (Response 200 (Json {[ "games" :=
       PList (game_data ∘ uncurry load <$> map_to_list t) ]}), t).
Proof. unfold wsgi_app, dispatch_request. by rewrite get_games_run. Qed.

Lemma wsgi_app_GET_game id t :
  wsgi_app pk_of_text (GET_game id) t =
    (match select_by_pk pk_of_text id t with
     | Some (k, r) =>
         Response 200 (Json {[ "name" := PStr (row_name r);
                               "description" := py_text (row_description r) ]})
     | None => Response 404 ErrorPage
     end, t).
Proof.
  unfold wsgi_app, dispatch_request. rewrite get_game_run.
  by destruct (select_by_pk _ _ _) as [[k r]|].
Qed.

Lemma wsgi_app_POST_games request_json t :
  wsgi_app pk_of_text (POST_games request_json) t =
    match request_json !! "name", request_json !! "description" with
    | Some (Some n), Some d =>
        if name_taken n t then (Response 500 ErrorPage, t)
        else (Response 200 (Json {[ "id" := PInt (next_rowid t) ]}),
              <[next_rowid t := Row n d]> t)
    | _, _ => (Response 500 ErrorPage, t)
    end.
Proof.
  unfold wsgi_app, dispatch_request. rewrite add_drink_run.
  case_body request_json; try done.
  by destruct (name_taken n t).
Qed.

Lemma wsgi_app_DELETE_game id t :
  wsgi_app pk_of_text (DELETE_game id) t =
    match select_by_pk pk_of_text id t with
    | Some (k, r) =>
        (Response 200 (Json {[ "message" := PStr (row_name r +:+ " deleted") ]}),
         delete k t)
    | None => (Response 200 (Html "Error: game not found"), t)
    end.
Proof.
  unfold wsgi_app, dispatch_request. rewrite delete_game_run.
  by destruct (select_by_pk _ _ _) as [[k r]|].
Qed.


(** C2.  A DELETE for an identifier that selects no row answers with
    status 200 and the text 'Error: game not found', which is neither the
    404 page nor a JSON body, and leaves the table as it was. *)
Theorem delete_game_absent (t : table) (id : string) :
  select_by_pk pk_of_text id t = None →
  wsgi_app pk_of_text (DELETE_game id) t
    = (Response 200 (Html "Error: game not found"), t) ∧
  status (wsgi_app pk_of_text (DELETE_game id) t).1 ≠ 404 ∧
  (∀ d, body (wsgi_app pk_of_text (DELETE_game id) t).1 ≠ Json d).
Proof.
  intros Habsent. rewrite wsgi_app_DELETE_game, Habsent. by split_and!.
Qed.


(** C4.  A DELETE for an identifier that selects the row [r] under key [k]
    removes that row and no other, answers with the message
    "<name of r> deleted", and a GET for the same identifier afterwards
    answers 404. *)
Theorem delete_game_present (t : table) (id : string) (k : Z) (r : row) :
  select_by_pk pk_of_text id t = Some (k, r) →
  wsgi_app pk_of_text (DELETE_game id) t
    = (Response 200 (Json {[ "message" := PStr (row_name r +:+ " deleted") ]}),
       delete k t) ∧
  t !! k = Some r ∧
  delete k t !! k = None ∧
  (∀ j, j ≠ k → delete k t !! j = t !! j) ∧
  wsgi_app pk_of_text (GET_game id) (delete k t)
    = (Response 404 ErrorPage, delete k t).
Proof.
  intros Hsel. pose proof Hsel as [Hid Hrow]%select_by_pk_Some.
  rewrite wsgi_app_DELETE_game, Hsel, wsgi_app_GET_game.
  rewrite (select_by_pk_delete _ _ _ _ Hid).
  split_and!; [done|done|apply lookup_delete_eq| |done].
  intros j Hj. by apply lookup_delete_ne.
Qed.

(** C5.  Names stay unique.  A POST whose body carries the name of a stored
    row answers 500 and stores nothing, and when the body also carries a
    description the exception is the UNIQUE violation raised by the INSERT;
    every request keeps the names of the table distinct; so the names are
    distinct in every table the application reaches from the empty one. *)
Theorem name_uniqueness_invariant :
  (∀ (t : table) (request_json : gmap string text) (n : string),
     request_json !! "name" = Some (Some n) → has_name n t →
     wsgi_app pk_of_text (POST_games request_json) t
       = (Response 500 ErrorPage, t) ∧
     (is_Some (request_json !! "description") →
      add_drink request_json t = (Raise (IntegrityError Unique), t))) ∧
  (∀ (req : request) (t : table),
     unique_names t → unique_names (wsgi_app pk_of_text req t).2) ∧
  (∀ t : table, reachable pk_of_text t → unique_names t).
Proof.
  split_and!.
  - intros t request_json n Hname Htaken.
    rewrite wsgi_app_POST_games, add_drink_run, Hname.
    rewrite (name_taken_true _ _ Htaken).
    split; [by destruct (request_json !! "description")|].
    by intros [d ->].
  - apply wsgi_app_unique_names.
  - apply reachable_unique_names.
Qed.

(** C6.  A POST whose body has no key name raises the [KeyError] of the
    dictionary lookup, which nothing in the view catches: the answer is 500
    and the table is as it was. *)
Theorem add_drink_without_name (t : table) (request_json : gmap string text) :
  request_json !! "name" = None →
  add_drink request_json t = (Raise (KeyError "name"), t) ∧
  wsgi_app pk_of_text (POST_games request_json) t = (Response 500 ErrorPage, t).
Proof.
  intros Hname. rewrite wsgi_app_POST_games, add_drink_run, Hname. by split.
Qed.

(** C7.  GET /games answers 200 with a JSON object whose only key, games,
    holds a list with one element per stored row, so as many elements as the
    table has rows; every element is an object whose keys are exactly name
    and description (there is no id), holding the two columns of its row. *)
Theorem get_games_one_item_per_row (t : table) :
  ∃ output : list pyval,
    wsgi_app pk_of_text GET_games t
      = (Response 200 (Json {[ "games" := PList output ]}), t) ∧
    length output = size t ∧
    output = (λ kr, PDict {[ "name" := PStr (row_name kr.2);
                             "description" := py_text (row_description kr.2) ]})
               <$> map_to_list t ∧
    Forall (λ v, ∃ d, v = PDict d ∧ dom d = {[ "name"; "description" ]}
                      ∧ d !! "id" = None) output.
Proof.
  eexists. split; [apply wsgi_app_GET_games|].
  split; [by rewrite length_fmap, length_map_to_list|].
  split.
  - apply list_fmap_ext. by intros i [k r] _.
  - apply Forall_fmap, Forall_true. intros [k r]. simpl.
    eexists. split; [done|]. split; [apply dom_name_description|done].
Qed.

(** C8.  GET / answers 200 with the text 'Hello World' whatever the table
    holds, and the view [index] is that constant: it takes no table. *)
Theorem index_hello_world :
  index = RStr "Hello World" ∧
  ∀ t : table,
    wsgi_app pk_of_text GET_index t = (Response 200 (Html "Hello World"), t).
Proof. by split. Qed.

(** C9.  A POST whose body has no key description raises a [KeyError]
    (for name when that key is absent too, for description otherwise),
    answers 500 and stores nothing, although the table itself accepts a row
    without a description: a body whose description is null is stored. *)
Theorem add_drink_without_description (t : table) (request_json : gmap string text) :
  request_json !! "description" = None →
  add_drink request_json t
    = (Raise (KeyError (match request_json !! "name" with
                        | Some _ => "description"
                        | None => "name"
                        end)), t) ∧
  wsgi_app pk_of_text (POST_games request_json) t = (Response 500 ErrorPage, t) ∧
  (∀ n, ¬ has_name n t →
     (add_drink {[ "name" := Some n; "description" := None ]} t).2
       = <[next_rowid t := Row n None]> t).
Proof.
  intros Hdesc. rewrite wsgi_app_POST_games, add_drink_run, Hdesc.
  split_and!.
  - by destruct (request_json !! "name") as [[n|]|].
  - by destruct (request_json !! "name") as [[n|]|].
  - intros n Hfree. rewrite add_drink_run.
    rewrite lookup_insert_eq, lookup_insert_ne, lookup_singleton_eq by done.
    by rewrite (name_taken_false _ _ Hfree).
Qed.

(** C10.  The three GET routes leave the table as it was, GET /games/<id>
    also when it aborts with 404. *)
Theorem read_views_keep_table (t : table) :
  (wsgi_app pk_of_text GET_index t).2 = t ∧
  (wsgi_app pk_of_text GET_games t).2 = t ∧
  (∀ id, (wsgi_app pk_of_text (GET_game id) t).2 = t) ∧
  (∀ id, select_by_pk pk_of_text id t = None →
         wsgi_app pk_of_text (GET_game id) t = (Response 404 ErrorPage, t)).
Proof.
  split_and!.
  - done.
  - by rewrite wsgi_app_GET_games.
  - intros id. by rewrite wsgi_app_GET_game.
  - intros id Habsent. by rewrite wsgi_app_GET_game, Habsent.
Qed.

End Responses.

(** ** The application on concrete requests *)

Example post_into_empty_table :
  wsgi_app decimal (POST_games zelda) ∅
  = (Response 200 (Json {[ "id" := PInt 1 ]}),
     {[ 1 := Row "Zelda" (Some "An adventure") ]}).
Proof. vm_compute. reflexivity. Qed.

Example post_two_games :
  (wsgi_app decimal (POST_games pong)
     (wsgi_app decimal (POST_games zelda) ∅).2).2 = two_games.
Proof. vm_compute. reflexivity. Qed.

Example two_games_reachable : reachable decimal two_games.
Proof.
  rewrite <- post_two_games.
  apply reachable_request, reachable_request, reachable_empty.
Qed.

Example post_duplicate_name :
  add_drink zelda two_games = (Raise (IntegrityError Unique), two_games).
Proof. vm_compute. reflexivity. Qed.

Example post_null_name :
  add_drink {[ "name" := None; "description" := Some "x" ]} two_games
  = (Raise (IntegrityError NotNull), two_games).
Proof. vm_compute. reflexivity. Qed.

Example get_game_not_a_number :
  wsgi_app decimal (GET_game "zelda") two_games
  = (Response 404 ErrorPage, two_games).
Proof. vm_compute. reflexivity. Qed.

Example key_reused_after_delete :
  (wsgi_app decimal (POST_games tetris)
     (wsgi_app decimal (DELETE_game "2") two_games).2).1
  = Response 200 (Json {[ "id" := PInt 2 ]}).
Proof. vm_compute. reflexivity. Qed.


Lemma delete_game_absent_witness :
  wsgi_app decimal (DELETE_game "7") two_games
    = (Response 200 (Html "Error: game not found"), two_games) ∧
  status (wsgi_app decimal (DELETE_game "7") two_games).1 ≠ 404 ∧
  (∀ d, body (wsgi_app decimal (DELETE_game "7") two_games).1 ≠ Json d).
Proof. apply (delete_game_absent decimal two_games "7"). reflexivity. Defined.

Lemma delete_game_present_witness :
  wsgi_app decimal (DELETE_game "1") two_games
    = (Response 200 (Json {[ "message" := PStr "Zelda deleted" ]}),
       delete 1 two_games) ∧
  two_games !! 1 = Some (Row "Zelda" (Some "An adventure")) ∧
  delete 1 two_games !! 1 = None ∧
  (∀ j, j ≠ 1 → delete 1 two_games !! j = two_games !! j) ∧
  wsgi_app decimal (GET_game "1") (delete 1 two_games)
    = (Response 404 ErrorPage, delete 1 two_games).
Proof.
  apply (delete_game_present decimal two_games "1" 1
           (Row "Zelda" (Some "An adventure"))).
  reflexivity.
Defined.

Lemma name_uniqueness_invariant_witness :
  wsgi_app decimal (POST_games zelda) two_games
    = (Response 500 ErrorPage, two_games) ∧
  add_drink zelda two_games = (Raise (IntegrityError Unique), two_games) ∧
  unique_names (wsgi_app decimal (DELETE_game "2") two_games).2 ∧
  unique_names two_games.
Proof.
  destruct (name_uniqueness_invariant decimal) as (Hpost & Hstep & Hreach).
  assert (Hzelda : has_name "Zelda" two_games) by by_evaluation.
  destruct (Hpost two_games zelda "Zelda" eq_refl Hzelda) as [H500 Hexn].
  split; [exact H500|]. split; [apply Hexn; by eexists|].
  split; [apply Hstep|]; apply Hreach, two_games_reachable.
Defined.

Lemma add_drink_without_name_witness :
  add_drink nameless two_games = (Raise (KeyError "name"), two_games) ∧
  wsgi_app decimal (POST_games nameless) two_games
    = (Response 500 ErrorPage, two_games).
Proof. apply (add_drink_without_name decimal two_games nameless). reflexivity. Defined.

Lemma add_drink_without_description_witness :
  add_drink zelda_again two_games
    = (Raise (KeyError "description"), two_games) ∧
  wsgi_app decimal (POST_games zelda_again) two_games
    = (Response 500 ErrorPage, two_games) ∧
  (∀ n, ¬ has_name n two_games →
     (add_drink {[ "name" := Some n; "description" := None ]} two_games).2
       = <[next_rowid two_games := Row n None]> two_games).
Proof.
  apply (add_drink_without_description decimal two_games zelda_again).
  reflexivity.
Defined.

(** * Further properties of the views *)

(** ** Keys *)

(** [max_rowid] is [None] on the empty table only, and otherwise a key of
    the table that no key exceeds. *)
Lemma max_rowid_spec (t : table) :
  match max_rowid t with
  | None => t = ∅
  | Some m => is_Some (t !! m) ∧ ∀ k, is_Some (t !! k) → k ≤ m
  end.
Proof.
  unfold max_rowid.
  apply (map_fold_weak_ind
           (λ acc (t : table),
              match acc with
              | None => t = ∅
              | Some m => is_Some (t !! m) ∧ ∀ k, is_Some (t !! k) → k ≤ m
              end)); [done|].
  intros i x m acc Hi IH. destruct acc as [a|].
  - destruct IH as [Ha Hmax]. split.
    + destruct (Z.max_spec i a) as [[_ ->]|[_ ->]].
      * rewrite lookup_insert_ne; [done|]. intros ->.
        rewrite Hi in Ha. by destruct Ha.
      * rewrite lookup_insert_eq. by eexists.
    + intros k Hk. destruct (decide (i = k)) as [->|Hne]; [lia|].
      rewrite lookup_insert_ne in Hk by done. specialize (Hmax k Hk). lia.
  - subst m. split.
    + rewrite lookup_insert_eq. by eexists.
    + intros k Hk. destruct (decide (i = k)) as [->|Hne]; [lia|].
      rewrite lookup_insert_ne, lookup_empty in Hk by done. by destruct Hk.
Qed.

Lemma next_rowid_empty : next_rowid ∅ = 1.
Proof. reflexivity. Qed.

(** The key of a new row is above every key in use. *)
Lemma next_rowid_above (t : table) k : is_Some (t !! k) → k < next_rowid t.
Proof.
  intros Hk. unfold next_rowid. pose proof (max_rowid_spec t) as Hspec.
  destruct (max_rowid t) as [m|].
  - destruct Hspec as [_ Hmax]. specialize (Hmax k Hk). lia.
  - subst t. rewrite lookup_empty in Hk. by destruct Hk.
Qed.

(** After an INSERT the next key is one further. *)
Lemma next_rowid_insert (t : table) r :
  next_rowid (<[next_rowid t := r]> t) = next_rowid t + 1.
Proof.
  set (k := next_rowid t). unfold next_rowid at 1.
  pose proof (max_rowid_spec (<[k := r]> t)) as Hspec.
  destruct (max_rowid (<[k := r]> t)) as [m|].
  - destruct Hspec as [Hm Hmax].
    assert (k ≤ m) by (apply Hmax; rewrite lookup_insert_eq; by eexists).
    destruct (decide (k = m)) as [->|Hne]; [done|].
    rewrite lookup_insert_ne in Hm by done.
    apply next_rowid_above in Hm. fold k in Hm. lia.
  - exfalso. apply (insert_non_empty t k r). done.
Qed.

(** A key that is at least 1 stays so: the first key is 1 and every later
    one is above a key in use. *)
Lemma next_rowid_positive (t : table) :
  (∀ k, is_Some (t !! k) → 1 ≤ k) → 1 ≤ next_rowid t.
Proof.
  intros Hpos. unfold next_rowid. pose proof (max_rowid_spec t) as Hspec.
  destruct (max_rowid t) as [m|]; [|done].
  destruct Hspec as [Hm _]. specialize (Hpos m Hm). lia.
Qed.

Lemma has_name_insert n (t : table) k r :
  t !! k = None →
  has_name n (<[k := r]> t) ↔ row_name r = n ∨ has_name n t.
Proof.
  intros Hk. rewrite !has_name_lookup. split.
  - intros (j & rj & Hj & Hn). destruct (decide (k = j)) as [->|Hne].
    + rewrite lookup_insert_eq in Hj. injection Hj as ->. by left.
    + rewrite lookup_insert_ne in Hj by done. right. by exists j, rj.
  - intros [Hn|(j & rj & Hj & Hn)].
    + exists k, r. by rewrite lookup_insert_eq.
    + exists j, rj. split; [|done]. rewrite lookup_insert_ne; [done|].
      intros ->. congruence.
Qed.

Lemma has_name_delete (t : table) k r :
  unique_names t → t !! k = Some r → ¬ has_name (row_name r) (delete k t).
Proof.
  intros Hu Hk (j & rj & Hj & Hn)%has_name_lookup.
  apply lookup_delete_Some in Hj as [Hne Hj].
  apply Hne. by apply (Hu k j r rj).
Qed.

(** ** The text of a game *)

Lemma string_app_assoc (a b c : string) : (a +:+ b) +:+ c = a +:+ (b +:+ c).
Proof.
  induction a as [|x a IH]; [done|].
  change (String x ((a +:+ b) +:+ c) = String x (a +:+ (b +:+ c))).
  by f_equal.
Qed.

(** X1.  [__repr__] does not identify a game: it leaves out the id, a NULL
    description reads like the text None, and the separator may as well be
    part of the name as of the description. *)
Theorem repr_ambiguous (i j : option Z) (n a b : string) :
  Games.repr (Games.mk i (Some n) None)
    = Games.repr (Games.mk j (Some n) (Some "None")) ∧
  Games.repr (Games.mk i (Some (n +:+ " - " +:+ a)) (Some b))
    = Games.repr (Games.mk j (Some n) (Some (a +:+ " - " +:+ b))).
Proof.
  split; [done|]. unfold Games.repr. simpl.
  by rewrite !string_app_assoc.
Qed.

(** ** Single requests *)

Section SingleRequests.

Variable pk_of_text : string → option Z.

(** X2.  A POST whose body has the name null (and a description) is refused
    by the NOT NULL constraint of the column: [IntegrityError], answer 500,
    nothing stored. *)
Theorem add_drink_null_name (t : table) (request_json : gmap string text) :
  request_json !! "name" = Some None →
  is_Some (request_json !! "description") →
  add_drink request_json t = (Raise (IntegrityError NotNull), t) ∧
  wsgi_app pk_of_text (POST_games request_json) t = (Response 500 ErrorPage, t).
Proof.
  intros Hname [d Hdesc].
  by rewrite wsgi_app_POST_games, add_drink_run, Hname, Hdesc.
Qed.


(** X4.  Whatever the request, an answer other than 200 means that the
    table is as it was. *)
Theorem error_keeps_table (req : request) (t : table) :
  status (wsgi_app pk_of_text req t).1 ≠ 200 →
  (wsgi_app pk_of_text req t).2 = t.
Proof.
  destruct req as [| |id|request_json|id].
  - done.
  - by rewrite wsgi_app_GET_games.
  - by rewrite wsgi_app_GET_game.
  - rewrite wsgi_app_POST_games.
    case_body request_json; try done. by destruct (name_taken n t).
  - rewrite wsgi_app_DELETE_game. by destruct (select_by_pk _ _ _) as [[k r]|].
Qed.


(** X6.  A POST reads the keys name and description and nothing else: two
    bodies that agree on these two keys get the same answer and leave the
    same table. *)
Theorem add_drink_ignores_other_keys (t : table) (b1 b2 : gmap string text) :
  b1 !! "name" = b2 !! "name" →
  b1 !! "description" = b2 !! "description" →
  wsgi_app pk_of_text (POST_games b1) t = wsgi_app pk_of_text (POST_games b2) t.
Proof. intros Hn Hd. by rewrite !wsgi_app_POST_games, Hn, Hd. Qed.

End SingleRequests.

(** ** Requests one after the other *)

Section Sequences.

Variable pk_of_text : string → option Z.

Lemma select_by_pk_insert_other id (t : table) k r :
  t !! k = None → is_Some (select_by_pk pk_of_text id t) →
  select_by_pk pk_of_text id (<[k := r]> t) = select_by_pk pk_of_text id t.
Proof.
  unfold select_by_pk. intros Hk [kr Hsel].
  destruct (pk_of_text id) as [k'|]; simpl in *; [|done].
  destruct (decide (k = k')) as [->|Hne].
  - by rewrite Hk in Hsel.
  - by rewrite lookup_insert_ne.
Qed.

Lemma select_by_pk_delete_other id (t : table) k :
  pk_of_text id ≠ Some k →
  select_by_pk pk_of_text id (delete k t) = select_by_pk pk_of_text id t.
Proof.
  unfold select_by_pk. intros Hne.
  destruct (pk_of_text id) as [k'|]; simpl; [|done].
  rewrite lookup_delete_ne; [done|]. congruence.
Qed.

Lemma game_data_load k r :
  game_data (load k r)
  = PDict {[ "name" := PStr (row_name r);
             "description" := py_text (row_description r) ]}.
Proof. done. Qed.


(** X8.  A second DELETE for the same identifier always finds nothing: it
    answers 'Error: game not found' and changes nothing. *)
Theorem delete_game_twice (t : table) (id : string) :
  wsgi_app pk_of_text (DELETE_game id)
      (wsgi_app pk_of_text (DELETE_game id) t).2
  = (Response 200 (Html "Error: game not found"),
     (wsgi_app pk_of_text (DELETE_game id) t).2).
Proof.
  rewrite (wsgi_app_DELETE_game _ id t).
  destruct (select_by_pk pk_of_text id t) as [[k r]|] eqn:Hsel; simpl.
  - apply select_by_pk_Some in Hsel as [Hid _].
    by rewrite wsgi_app_DELETE_game, (select_by_pk_delete _ _ _ _ Hid).
  - by rewrite wsgi_app_DELETE_game, Hsel.
Qed.

(** X9.  A request changes what GET /games/<id> answers for a stored game
    only if it is a DELETE for the key of that game: after any other
    request the answer is the same. *)
Theorem other_games_unaffected (req : request) (t : table) (id' : string) :
  (∀ id, req = DELETE_game id → pk_of_text id ≠ pk_of_text id') →
  is_Some (select_by_pk pk_of_text id' t) →
  (wsgi_app pk_of_text (GET_game id') (wsgi_app pk_of_text req t).2).1
  = (wsgi_app pk_of_text (GET_game id') t).1.
Proof.
  intros Hother Hsel. rewrite !wsgi_app_GET_game. simpl.
  enough (select_by_pk pk_of_text id' (wsgi_app pk_of_text req t).2
          = select_by_pk pk_of_text id' t) as -> by done.
  destruct req as [| |id|request_json|id].
  - done.
  - by rewrite wsgi_app_GET_games.
  - by rewrite wsgi_app_GET_game.
  - rewrite wsgi_app_POST_games. case_body request_json; try done.
    destruct (name_taken n t); [done|]. simpl.
    by apply select_by_pk_insert_other; [apply next_rowid_fresh|].
  - rewrite wsgi_app_DELETE_game.
    destruct (select_by_pk pk_of_text id t) as [[k r]|] eqn:Hdel; [|done].
    simpl. apply select_by_pk_delete_other.
    apply select_by_pk_Some in Hdel as [Hid _].
    rewrite <- Hid. intros Heq. by apply (Hother id).
Qed.

(** X10.  After a POST that stores a game, GET /games lists the games it
    listed before and the new one, in some order. *)
Theorem get_games_after_add_drink
    (t : table) (request_json : gmap string text) (n : string) (d : text) :
  request_json !! "name" = Some (Some n) →
  request_json !! "description" = Some d →
  ¬ has_name n t →
  ∃ output output' : list pyval,
    (wsgi_app pk_of_text GET_games t).1
      = Response 200 (Json {[ "games" := PList output ]}) ∧
    (wsgi_app pk_of_text GET_games
       (wsgi_app pk_of_text (POST_games request_json) t).2).1
      = Response 200 (Json {[ "games" := PList output' ]}) ∧
    output' ≡ₚ PDict {[ "name" := PStr n; "description" := py_text d ]}
                 :: output.
Proof.
  intros Hname Hdesc Hfree. eexists _, _.
  rewrite !wsgi_app_GET_games, wsgi_app_POST_games, Hname, Hdesc.
  rewrite (name_taken_false _ _ Hfree). simpl.
  split; [done|]. split; [done|].
  by rewrite (map_to_list_insert _ _ _ (next_rowid_fresh t)).
Qed.

(** X11.  After a DELETE that finds its game, GET /games lists the games it
    listed before without the deleted one: one element fewer. *)
Theorem get_games_after_delete_game (t : table) (id : string) (k : Z) (r : row) :
  select_by_pk pk_of_text id t = Some (k, r) →
  ∃ output output' : list pyval,
    (wsgi_app pk_of_text GET_games t).1
      = Response 200 (Json {[ "games" := PList output ]}) ∧
    (wsgi_app pk_of_text GET_games
       (wsgi_app pk_of_text (DELETE_game id) t).2).1
      = Response 200 (Json {[ "games" := PList output' ]}) ∧
    output ≡ₚ PDict {[ "name" := PStr (row_name r);
                       "description" := py_text (row_description r) ]}
                :: output' ∧
    length output = S (length output').
Proof.
  intros Hsel. eexists _, _.
  rewrite !wsgi_app_GET_games, wsgi_app_DELETE_game, Hsel. simpl.
  apply select_by_pk_Some in Hsel as [_ Hrow].
  split; [done|]. split; [done|].
  assert (game_data ∘ uncurry load <$> map_to_list t
          ≡ₚ game_data (load k r)
               :: (game_data ∘ uncurry load <$> map_to_list (delete k t)))
    as Hperm by by rewrite <- (map_to_list_delete _ _ _ Hrow).
  split; [done|]. by rewrite Hperm.
Qed.

(** X12.  In a table the application has reached, GET /games never lists a
    name twice: two positions of the list with the same name are the same
    position. *)
Theorem get_games_distinct_names (t : table) :
  reachable pk_of_text t →
  ∃ output : list pyval,
    (wsgi_app pk_of_text GET_games t).1
      = Response 200 (Json {[ "games" := PList output ]}) ∧
    ∀ (i j : nat) (di dj : gmap string pyval),
      output !! i = Some (PDict di) → output !! j = Some (PDict dj) →
      di !! "name" = dj !! "name" → i = j.
Proof.
  intros Hu%reachable_unique_names. eexists.
  rewrite wsgi_app_GET_games. split; [done|].
  intros i j di dj Hi Hj Hname.
  apply list_lookup_fmap_Some in Hi as ([ki ri] & Hdi & Hi).
  apply list_lookup_fmap_Some in Hj as ([kj rj] & Hdj & Hj).
  change (PDict di = game_data (load ki ri)) in Hdi.
  change (PDict dj = game_data (load kj rj)) in Hdj.
  rewrite game_data_load in Hdi, Hdj.
  injection Hdi as ->. injection Hdj as ->.
  rewrite !lookup_insert_eq in Hname. injection Hname as Hname.
  assert (t !! ki = Some ri) as Hki
    by (apply elem_of_map_to_list; by eapply list_elem_of_lookup_2).
  assert (t !! kj = Some rj) as Hkj
    by (apply elem_of_map_to_list; by eapply list_elem_of_lookup_2).
  assert (ki = kj) as -> by by apply (Hu ki kj ri rj).
  assert (ri = rj) as -> by congruence.
  by apply (NoDup_lookup (map_to_list t) i j (kj, rj));
    [apply NoDup_map_to_list| |].
Qed.

(** X13.  What GET /games/<id> returns for a game is an element of the list
    that GET /games returns. *)
Theorem get_game_in_get_games (t : table) (id : string) (d : gmap string pyval) :
  (wsgi_app pk_of_text (GET_game id) t).1 = Response 200 (Json d) →
  ∃ output : list pyval,
    (wsgi_app pk_of_text GET_games t).1
      = Response 200 (Json {[ "games" := PList output ]}) ∧
    PDict d ∈ output.
Proof.
  rewrite wsgi_app_GET_game, wsgi_app_GET_games. simpl.
  destruct (select_by_pk pk_of_text id t) as [[k r]|] eqn:Hsel; [|done].
  intros [= <-]. eexists. split; [done|].
  apply select_by_pk_Some in Hsel as [_ Hrow].
  apply list_elem_of_fmap. exists (k, r). split; [done|].
  by apply elem_of_map_to_list.
Qed.

(** X14.  Where names are unique, a DELETE frees the name of its game: a
    POST with that name, and any description, is then answered with 200. *)
Theorem name_free_after_delete_game
    (t : table) (id : string) (k : Z) (r : row) (d : text) :
  unique_names t →
  select_by_pk pk_of_text id t = Some (k, r) →
  status (wsgi_app pk_of_text (POST_games (game_json (row_name r, d)))
            (wsgi_app pk_of_text (DELETE_game id) t).2).1 = 200.
Proof.
  intros Hu Hsel. rewrite wsgi_app_DELETE_game, Hsel. simpl.
  apply select_by_pk_Some in Hsel as [_ Hrow].
  rewrite wsgi_app_POST_games. unfold game_json. simpl.
  rewrite lookup_insert_eq, lookup_insert_ne, lookup_singleton_eq by done.
  by rewrite (name_taken_false _ _ (has_name_delete _ _ _ Hu Hrow)).
Qed.

Lemma serve_post_stored n d (reqs : list request) (t : table) :
  ¬ has_name n t →
  serve pk_of_text (POST_games (game_json (n, d)) :: reqs) t
  = (Response 200 (Json {[ "id" := PInt (next_rowid t) ]})
       :: (serve pk_of_text reqs (<[next_rowid t := Row n d]> t)).1,
     (serve pk_of_text reqs (<[next_rowid t := Row n d]> t)).2).
Proof.
  intros Hfree. simpl. rewrite wsgi_app_POST_games. unfold game_json. simpl.
  rewrite lookup_insert_eq, lookup_insert_ne, lookup_singleton_eq by done.
  rewrite (name_taken_false _ _ Hfree).
  by destruct (serve pk_of_text reqs _).
Qed.


Lemma wsgi_app_keys_positive req (t : table) :
  (∀ j, is_Some (t !! j) → 1 ≤ j) →
  ∀ j, is_Some ((wsgi_app pk_of_text req t).2 !! j) → 1 ≤ j.
Proof.
  intros Hpos. destruct req as [| |id|request_json|id].
  - done.
  - by rewrite wsgi_app_GET_games.
  - by rewrite wsgi_app_GET_game.
  - rewrite wsgi_app_POST_games. case_body request_json; try done.
    destruct (name_taken n t); [done|]. simpl. intros j Hj.
    destruct (decide (next_rowid t = j)) as [<-|Hne].
    + by apply next_rowid_positive.
    + rewrite lookup_insert_ne in Hj by done. by apply Hpos.
  - rewrite wsgi_app_DELETE_game.
    destruct (select_by_pk _ _ _) as [[k r]|]; [|done]. simpl.
    intros j [rj Hj]. apply lookup_delete_Some in Hj as [_ Hj].
    apply Hpos. by eexists.
Qed.

(** X16.  In a table the application has reached every key is at least 1,
    and the id that a POST returns there is at least 1 and above every key
    in use. *)
Theorem post_returns_new_positive_id
    (t : table) (request_json : gmap string text) (d : gmap string pyval) :
  reachable pk_of_text t →
  (wsgi_app pk_of_text (POST_games request_json) t).1 = Response 200 (Json d) →
  (∀ j, is_Some (t !! j) → 1 ≤ j) ∧
  ∃ k : Z, d = {[ "id" := PInt k ]} ∧ 1 ≤ k ∧ ∀ j, is_Some (t !! j) → j < k.
Proof.
  intros Hreach Hpost.
  assert (∀ j, is_Some (t !! j) → 1 ≤ j) as Hpos.
  { clear Hpost. induction Hreach as [|req t _ IH].
    - intros j Hj. rewrite lookup_empty in Hj. by destruct Hj.
    - by apply wsgi_app_keys_positive. }
  split; [done|]. revert Hpost. rewrite wsgi_app_POST_games.
  case_body request_json; simpl; try done.
  destruct (name_taken n t); simpl; [done|]. intros [= <-].
  exists (next_rowid t). split; [done|].
  split; [by apply next_rowid_positive|apply next_rowid_above].
Qed.

End Sequences.

(** ** The further properties on concrete requests *)

Lemma add_drink_null_name_witness :
  add_drink {[ "name" := None; "description" := Some "No name" ]} two_games
    = (Raise (IntegrityError NotNull), two_games) ∧
  wsgi_app decimal
      (POST_games {[ "name" := None; "description" := Some "No name" ]})
      two_games
    = (Response 500 ErrorPage, two_games).
Proof.
  apply (add_drink_null_name decimal two_games
           {[ "name" := None; "description" := Some "No name" ]});
    [reflexivity | by eexists].
Defined.

Lemma error_keeps_table_witness :
  (wsgi_app decimal (POST_games zelda) two_games).2 = two_games.
Proof.
  apply (error_keeps_table decimal (POST_games zelda) two_games).
  vm_compute. discriminate.
Defined.

Lemma add_drink_ignores_other_keys_witness :
  wsgi_app decimal (POST_games tetris) two_games
  = wsgi_app decimal (POST_games (<["genre" := Some "Puzzle"]> tetris)) two_games.
Proof.
  apply (add_drink_ignores_other_keys decimal two_games tetris
           (<["genre" := Some "Puzzle"]> tetris)); reflexivity.
Defined.


Lemma other_games_unaffected_witness :
  (wsgi_app decimal (GET_game "1")
     (wsgi_app decimal (DELETE_game "2") two_games).2).1
  = (wsgi_app decimal (GET_game "1") two_games).1.
Proof.
  apply (other_games_unaffected decimal (DELETE_game "2") two_games "1").
  - intros id [= <-]. vm_compute. discriminate.
  - vm_compute. by eexists.
Defined.

Lemma get_games_after_add_drink_witness :
  ∃ output output' : list pyval,
    (wsgi_app decimal GET_games two_games).1
      = Response 200 (Json {[ "games" := PList output ]}) ∧
    (wsgi_app decimal GET_games
       (wsgi_app decimal (POST_games tetris) two_games).2).1
      = Response 200 (Json {[ "games" := PList output' ]}) ∧
    output' ≡ₚ PDict {[ "name" := PStr "Tetris";
                        "description" := PStr "Falling blocks" ]}
                 :: output.
Proof.
  apply (get_games_after_add_drink decimal two_games tetris
           "Tetris" (Some "Falling blocks"));
    [reflexivity | reflexivity | by_evaluation].
Defined.

Lemma get_games_after_delete_game_witness :
  ∃ output output' : list pyval,
    (wsgi_app decimal GET_games two_games).1
      = Response 200 (Json {[ "games" := PList output ]}) ∧
    (wsgi_app decimal GET_games
       (wsgi_app decimal (DELETE_game "2") two_games).2).1
      = Response 200 (Json {[ "games" := PList output' ]}) ∧
    output ≡ₚ PDict {[ "name" := PStr "Pong"; "description" := PNone ]}
                :: output' ∧
    length output = S (length output').
Proof.
  apply (get_games_after_delete_game decimal two_games "2" 2 (Row "Pong" None)).
  reflexivity.
Defined.

Lemma get_games_distinct_names_witness :
  ∃ output : list pyval,
    (wsgi_app decimal GET_games two_games).1
      = Response 200 (Json {[ "games" := PList output ]}) ∧
    ∀ (i j : nat) (di dj : gmap string pyval),
      output !! i = Some (PDict di) → output !! j = Some (PDict dj) →
      di !! "name" = dj !! "name" → i = j.
Proof.
  apply (get_games_distinct_names decimal two_games), two_games_reachable.
Defined.

Lemma get_game_in_get_games_witness :
  ∃ output : list pyval,
    (wsgi_app decimal GET_games two_games).1
      = Response 200 (Json {[ "games" := PList output ]}) ∧
    PDict {[ "name" := PStr "Zelda"; "description" := PStr "An adventure" ]}
      ∈ output.
Proof.
  apply (get_game_in_get_games decimal two_games "1"). reflexivity.
Defined.

Lemma name_free_after_delete_game_witness :
  status (wsgi_app decimal (POST_games (game_json ("Pong", Some "Again")))
            (wsgi_app decimal (DELETE_game "2") two_games).2).1 = 200.
Proof.
  apply (name_free_after_delete_game decimal two_games "2" 2
           (Row "Pong" None) (Some "Again")).
  - apply (reachable_unique_names decimal), two_games_reachable.
  - reflexivity.
Defined.


Lemma post_returns_new_positive_id_witness :
  (∀ j, is_Some (two_games !! j) → 1 ≤ j) ∧
  ∃ k : Z, ({[ "id" := PInt 3 ]} : gmap string pyval) = {[ "id" := PInt k ]}
           ∧ 1 ≤ k ∧ ∀ j, is_Some (two_games !! j) → j < k.
Proof.
  apply (post_returns_new_positive_id decimal two_games tetris
           {[ "id" := PInt 3 ]}).
  - apply two_games_reachable.
  - reflexivity.
Defined.
